(** * The libosmium input pipeline: [osmium/io/header.hpp] and
      [osmium/io/detail/input_format.hpp]

    A shallow embedding of the two headers and the properties of the guarded
    entry point [Parser::operator()], of the parser registry [ParserFactory]
    and of the [Header] data holder.

    Conventions.
    - A C++ member function becomes a function of the object's state.  Code
      that throws, blocks or mutates is written in a small monad [M] over the
      state of the worker, whose outcomes are "returns", "throws" and "blocks
      for ever".
    - The queues and the promise a [Parser] holds by reference are written as
      fields of its state, as seen from the worker thread: the input queue is
      the sequence of chunks still to be delivered to it (queued already or
      pushed later by the producer), the output queue is the sequence of
      everything pushed so far (consumers pop concurrently and never push).
    - Types declared in headers that are not part of the two files ([Bounds],
      [Buffer], [file_format], [create_parser_type]) are parameters. *)

From stdpp Require Import gmap strings list.

Section Osmium.

(** [osmium::Bounds] (osmium/osm/bounds.hpp) and its default-constructed
    value. *)
Context {Bounds : Type} (Bounds_default : Bounds).

(** [osmium::memory::Buffer] (osmium/memory/buffer.hpp); [Buffer_default]
    is the value of the expression [osmium::memory::Buffer{}]. *)
Context {Buffer : Type} (Buffer_default : Buffer).

(** [osmium::io::file_format] (osmium/io/file_format.hpp), the key type of
    the registry's [std::map], with its display function [as_string]. *)
Context {file_format : Type} `{Countable file_format}.
Context (as_string : file_format → string).

(** ** The C++ standard library as the sources use it *)

(** [std::string::empty]. *)
Definition str_empty (s : string) : bool :=
  match s with
  | EmptyString => true
  | String _ _ => false
  end.

Inductive future_errc : Type :=
| promise_already_satisfied.

(** What a [std::exception_ptr] points to: the [std::runtime_error] of
    [get_creator_function], the [std::future_error] of [std::promise], or
    any other exception a decoder throws ([catch (...)] takes them all). *)
Inductive exception : Type :=
| runtime_error (what : string)
| future_error (code : future_errc)
| decode_error (what : string).

(** The shared state of a promise/future pair once it is ready. *)
Inductive shared_state (T : Type) : Type :=
| ready_value (v : T)
| ready_exception (e : exception).
Global Arguments ready_value {T} v.
Global Arguments ready_exception {T} e.

(** A [std::promise<T>] that has a shared state, as a promise has that was
    default-constructed and not moved from: [None] until it is satisfied.
    A promise without shared state, on which [set_value] and
    [set_exception] throw [std::future_error] with [no_state], is not a
    value of this type, and the properties below say nothing about it. *)
Definition promise (T : Type) : Type := option (shared_state T).

Definition is_resolved {T} (p : promise T) : bool :=
  match p with
  | Some _ => true
  | None => false
  end.

(** [set_value] and [set_exception]: a promise is satisfied once; on a
    satisfied one they throw [std::future_error]. *)
Definition promise_set {T} (r : shared_state T) (p : promise T)
  : exception + promise T :=
  match p with
  | None => inr (Some r)
  | Some _ => inl (future_error promise_already_satisfied)
  end.

(** [std::map::insert]: the element is inserted when the key is absent;
    the [bool] of the returned pair tells whether it was. *)
Definition map_insert {V} (k : file_format) (v : V) (m : gmap file_format V)
  : gmap file_format V * bool :=
  match m !! k with
  | Some _ => (m, false)
  | None => (<[k := v]> m, true)
  end.

(** ** header.hpp *)

Record Header : Type := mkHeader {
  m_bounds : Bounds;
  m_has_multiple_object_versions : bool;
  m_generator : string;
  m_pbf_has_dense_nodes : bool
}.

(** [Header() = default]: the default member initializers, an empty
    [std::string], a default-constructed [Bounds]. *)
Definition Header_default : Header :=
  {| m_bounds := Bounds_default;
     m_has_multiple_object_versions := false;
     m_generator := "";
     m_pbf_has_dense_nodes := false |}.

(** The getters, on the value of the object. *)
Definition bounds (h : Header) : Bounds := m_bounds h.
Definition has_multiple_object_versions (h : Header) : bool :=
  m_has_multiple_object_versions h.
Definition generator (h : Header) : string := m_generator h.
Definition pbf_has_dense_nodes (h : Header) : bool := m_pbf_has_dense_nodes h.

(** The assignments the setters make. *)
Definition assign_bounds (b : Bounds) (h : Header) : Header :=
  {| m_bounds := b;
     m_has_multiple_object_versions := m_has_multiple_object_versions h;
     m_generator := m_generator h;
     m_pbf_has_dense_nodes := m_pbf_has_dense_nodes h |}.

Definition assign_has_multiple_object_versions (b : bool) (h : Header) : Header :=
  {| m_bounds := m_bounds h;
     m_has_multiple_object_versions := b;
     m_generator := m_generator h;
     m_pbf_has_dense_nodes := m_pbf_has_dense_nodes h |}.

Definition assign_generator (g : string) (h : Header) : Header :=
  {| m_bounds := m_bounds h;
     m_has_multiple_object_versions := m_has_multiple_object_versions h;
     m_generator := g;
     m_pbf_has_dense_nodes := m_pbf_has_dense_nodes h |}.

Definition assign_pbf_has_dense_nodes (b : bool) (h : Header) : Header :=
  {| m_bounds := m_bounds h;
     m_has_multiple_object_versions := m_has_multiple_object_versions h;
     m_generator := m_generator h;
     m_pbf_has_dense_nodes := b |}.

(** Member functions are called on objects: a store maps the address of
    each live [Header] to its value, a call takes [this] and the store and
    gives its result and the store after it ([None]: no object at [this]).
    A returned [Header&] is the address of the object referred to. *)
Definition loc : Type := positive.
Definition store : Type := gmap loc Header.

Definition Header_bounds (this : loc) (σ : store) : option (Bounds * store) :=
  h ← (σ : gmap loc Header) !! this; Some (bounds h, σ).

Definition Header_bounds_set (this : loc) (b : Bounds) (σ : store)
  : option (loc * store) :=
  h ← (σ : gmap loc Header) !! this;
  Some (this, <[this := assign_bounds b h]> σ).

Definition Header_has_multiple_object_versions (this : loc) (σ : store)
  : option (bool * store) :=
  h ← (σ : gmap loc Header) !! this; Some (has_multiple_object_versions h, σ).

Definition Header_has_multiple_object_versions_set (this : loc) (b : bool) (σ : store)
  : option (loc * store) :=
  h ← (σ : gmap loc Header) !! this;
  Some (this, <[this := assign_has_multiple_object_versions b h]> σ).

Definition Header_generator (this : loc) (σ : store) : option (string * store) :=
  h ← (σ : gmap loc Header) !! this; Some (generator h, σ).

Definition Header_generator_set (this : loc) (g : string) (σ : store)
  : option (loc * store) :=
  h ← (σ : gmap loc Header) !! this;
  Some (this, <[this := assign_generator g h]> σ).

Definition Header_pbf_has_dense_nodes (this : loc) (σ : store)
  : option (bool * store) :=
  h ← (σ : gmap loc Header) !! this; Some (pbf_has_dense_nodes h, σ).

Definition Header_pbf_has_dense_nodes_set (this : loc) (b : bool) (σ : store)
  : option (loc * store) :=
  h ← (σ : gmap loc Header) !! this;
  Some (this, <[this := assign_pbf_has_dense_nodes b h]> σ).

(** ** input_format.hpp: class Parser *)

(** What the worker does to the three channels it shares with the other
    threads, in the order it does it.  The log is ghost state: no code
    reads it. *)
Inductive event : Type :=
| header_resolved (r : shared_state Header)
| output_pushed (r : shared_state Buffer)
| input_popped (s : string).

(** The members of [Parser].  The three references are written as the
    objects they refer to.  An item of the output queue is a
    [std::future<Buffer>], written as the shared state it is given. *)
Record Parser : Type := mkParser {
  m_input_queue : list string;
  m_output_queue : list (shared_state Buffer);
  m_header_promise : promise Header;
  m_read_types : N;
  m_header_is_done : bool;
  m_input_queue_done : bool;
  events : list event
}.

(** The constructor: both flags start out [false]. *)
Definition Parser_new (input_queue : list string)
    (output_queue : list (shared_state Buffer))
    (header_promise : promise Header) (read_types : N) : Parser :=
  {| m_input_queue := input_queue;
     m_output_queue := output_queue;
     m_header_promise := header_promise;
     m_read_types := read_types;
     m_header_is_done := false;
     m_input_queue_done := false;
     events := [] |}.

Definition with_input_queue (q : list string) (st : Parser) : Parser :=
  {| m_input_queue := q;
     m_output_queue := m_output_queue st;
     m_header_promise := m_header_promise st;
     m_read_types := m_read_types st;
     m_header_is_done := m_header_is_done st;
     m_input_queue_done := m_input_queue_done st;
     events := events st |}.

Definition with_output_queue (q : list (shared_state Buffer)) (st : Parser) : Parser :=
  {| m_input_queue := m_input_queue st;
     m_output_queue := q;
     m_header_promise := m_header_promise st;
     m_read_types := m_read_types st;
     m_header_is_done := m_header_is_done st;
     m_input_queue_done := m_input_queue_done st;
     events := events st |}.

Definition with_header_promise (p : promise Header) (st : Parser) : Parser :=
  {| m_input_queue := m_input_queue st;
     m_output_queue := m_output_queue st;
     m_header_promise := p;
     m_read_types := m_read_types st;
     m_header_is_done := m_header_is_done st;
     m_input_queue_done := m_input_queue_done st;
     events := events st |}.

Definition with_header_is_done (b : bool) (st : Parser) : Parser :=
  {| m_input_queue := m_input_queue st;
     m_output_queue := m_output_queue st;
     m_header_promise := m_header_promise st;
     m_read_types := m_read_types st;
     m_header_is_done := b;
     m_input_queue_done := m_input_queue_done st;
     events := events st |}.

Definition with_input_queue_done (b : bool) (st : Parser) : Parser :=
  {| m_input_queue := m_input_queue st;
     m_output_queue := m_output_queue st;
     m_header_promise := m_header_promise st;
     m_read_types := m_read_types st;
     m_header_is_done := m_header_is_done st;
     m_input_queue_done := b;
     events := events st |}.

Definition log (ev : event) (st : Parser) : Parser :=
  {| m_input_queue := m_input_queue st;
     m_output_queue := m_output_queue st;
     m_header_promise := m_header_promise st;
     m_read_types := m_read_types st;
     m_header_is_done := m_header_is_done st;
     m_input_queue_done := m_input_queue_done st;
     events := events st ++ [ev] |}.

(** *** The monad of member functions *)

(** A call returns a value, leaves by an exception, or blocks for ever on
    a queue; each comes with the state the worker is then in. *)
Inductive outcome (A : Type) : Type :=
| Returns (a : A) (st : Parser)
| Throws (e : exception) (st : Parser)
| Blocks (st : Parser).
Global Arguments Returns {A} a st.
Global Arguments Throws {A} e st.
Global Arguments Blocks {A} st.

Definition M (A : Type) : Type := Parser → outcome A.

#[global] Instance M_ret : MRet M := λ A a st, Returns a st.

#[global] Instance M_bind : MBind M := λ A B k m st,
  match m st with
  | Returns a st' => k a st'
  | Throws e st' => Throws e st'
  | Blocks st' => Blocks st'
  end.

Definition throw {A} (e : exception) : M A := λ st, Throws e st.

(** [try { body } catch (...) { handler }], the handler being given
    [std::current_exception()]. *)
Definition try_catch {A} (body : M A) (handler : exception → M A) : M A :=
  λ st,
    match body st with
    | Returns a st' => Returns a st'
    | Throws e st' => handler e st'
    | Blocks st' => Blocks st'
    end.

Definition read {A} (member : Parser → A) : M A := λ st, Returns (member st) st.
Definition write (assign : Parser → Parser) : M unit := λ st, Returns () (assign st).

Definition final_state {A} (o : outcome A) : Parser :=
  match o with
  | Returns _ st => st
  | Throws _ st => st
  | Blocks st => st
  end.

(** *** The operations on the channels *)

(** [m_input_queue.wait_and_pop(s)]: takes the next chunk; with no chunk
    left to come, it waits for ever. *)
Definition wait_and_pop : M string := λ st,
  match m_input_queue st with
  | [] => Blocks st
  | s :: q => Returns s (log (input_popped s) (with_input_queue q st))
  end.

(** [m_output_queue.push(promise.get_future())] on a local promise that
    the next statement satisfies with [r].  [osmium::thread::Queue]
    (osmium/thread/queue.hpp) is not part of the two files: its [push] is
    taken to append and return. *)
Definition push_ready (r : shared_state Buffer) : M unit := λ st,
  Returns () (log (output_pushed r) (with_output_queue (m_output_queue st ++ [r]) st)).

(** [m_header_promise.set_value] and [m_header_promise.set_exception]. *)
Definition header_promise_set (r : shared_state Header) : M unit := λ st,
  match promise_set r (m_header_promise st) with
  | inl e => Throws e st
  | inr p => Returns () (log (header_resolved r) (with_header_promise p st))
  end.

(** *** The member functions *)

(** [do { m_input_queue.wait_and_pop(s); } while (!s.empty());] with one
    unit of fuel for each iteration. *)
Fixpoint drain_loop (fuel : nat) : M unit :=
  match fuel with
  | O => λ st, Blocks st
  | S fuel' =>
      s ← wait_and_pop;
      if negb (str_empty s) then drain_loop fuel' else mret ()
  end.

(** An iteration that does not block takes a chunk off the queue, so one
    iteration more than the queue has chunks is fuel enough
    ([drain_queue_loop] below is the loop's own equation). *)
Definition drain_queue : M unit := λ st,
  drain_loop (S (length (m_input_queue st))) st.

Definition send_exception (exception : exception) : M unit :=
  push_ready (ready_exception exception).

Definition send_to_output_queue (buffer : Buffer) : M unit :=
  push_ready (ready_value buffer).

(** [Parser::operator()], for the [run] of a derived class. *)
Definition operator_call (run : M unit) : M unit :=
  try_catch run (λ exception,
    header_is_done ← read m_header_is_done;
    (if negb header_is_done then
       write (with_header_is_done true);;
       header_promise_set (ready_exception exception)
     else mret ());;
    send_exception exception);;
  (* end of file marker *)
  send_to_output_queue Buffer_default;;
  input_queue_done ← read m_input_queue_done;
  if negb input_queue_done then drain_queue else mret ().

(** ** input_format.hpp: class ParserFactory *)

(** [create_parser_type], a [std::function]: the registry stores and
    returns such values and never calls them. *)
Context {create_parser_type : Type}.

(** [osmium::io::File] (osmium/io/file.hpp), read through [filename()]
    and [format()]. *)
Record File : Type := mkFile {
  filename : string;
  format : file_format
}.

Record ParserFactory : Type := mkParserFactory {
  m_callbacks : gmap file_format create_parser_type
}.

(** The private constructor: [m_callbacks()]. *)
Definition ParserFactory_new : ParserFactory := {| m_callbacks := ∅ |}.

Definition register_parser (format : file_format)
    (create_function : create_parser_type) (this : ParserFactory)
  : bool * ParserFactory :=
  let inserted := map_insert format create_function (m_callbacks this) in
  if negb inserted.2
  then (false, {| m_callbacks := inserted.1 |})
  else (true, {| m_callbacks := inserted.1 |}).

Definition get_creator_function (file : File) (this : ParserFactory)
  : exception + create_parser_type :=
  match m_callbacks this !! format file with
  | None =>
      inl (runtime_error
             (((("Can not open file '" +:+ filename file)
                  +:+ "' with type '")
                 +:+ as_string (format file))
                +:+ "'. No support for reading this format in this program."))
  | Some create_function => inr create_function
  end.

(** ** Derived classes

    [run] is pure virtual: the properties below are stated for an arbitrary
    [run : M unit].  The decoders of this section are derived classes in
    the shape the format plug-ins have, to run the entry point on. *)

(** Resolves the header, once, keeping [m_header_is_done] in step. *)
Definition mark_header_as_done (header : Header) : M unit :=
  header_is_done ← read m_header_is_done;
  if negb header_is_done then
    write (with_header_is_done true);;
    header_promise_set (ready_value header)
  else mret ().

Definition send_all (buffers : list Buffer) : M unit :=
  foldr (λ buffer rest, send_to_output_queue buffer;; rest) (mret ()) buffers.

(** Takes chunks until the empty one; [decode] gives the buffers of a
    chunk or the error it is rejected with; the header is known once the
    first chunk is decoded, or at the end of the input. *)
Fixpoint chunk_decoder_loop (decode : string → exception + list Buffer)
    (header : Header) (fuel : nat) : M unit :=
  match fuel with
  | O => λ st, Blocks st
  | S fuel' =>
      s ← wait_and_pop;
      if str_empty s then
        write (with_input_queue_done true);;
        mark_header_as_done header
      else
        match decode s with
        | inl e => throw e
        | inr buffers =>
            mark_header_as_done header;;
            send_all buffers;;
            chunk_decoder_loop decode header fuel'
        end
  end.

Definition chunk_decoder (decode : string → exception + list Buffer)
    (header : Header) : M unit := λ st,
  chunk_decoder_loop decode header (S (length (m_input_queue st))) st.


(** Resolves the header without setting [m_header_is_done], then throws. *)
Definition resolve_unflagged_then_throw (header : Header) (e : exception) : M unit :=
  header_promise_set (ready_value header);; throw e.

(** ** Vocabulary of the statements *)

(** The end of file marker of [operator()]. *)
Definition terminal : shared_state Buffer := ready_value Buffer_default.

(** How a call of [run] that ends leaves. *)
Inductive run_end : Type :=
| returned
| threw (e : exception).

Definition ends (o : outcome unit) : option (run_end * Parser) :=
  match o with
  | Returns _ st => Some (returned, st)
  | Throws e st => Some (threw e, st)
  | Blocks _ => None
  end.


Definition escapes {A} (o : outcome A) : bool :=
  match o with
  | Throws _ _ => true
  | _ => false
  end.

(** [m_header_is_done] tells whether the header promise is satisfied. *)
Definition header_flag_inv (st : Parser) : Prop :=
  m_header_is_done st = is_resolved (m_header_promise st).

Definition has_sentinel (q : list string) : bool := existsb str_empty q.

(** The chunks up to and including the first empty one (all of them when
    there is none), and the chunks after it. *)
Fixpoint through_sentinel (q : list string) : list string :=
  match q with
  | [] => []
  | s :: q' => if str_empty s then [s] else s :: through_sentinel q'
  end.

Fixpoint after_sentinel (q : list string) : list string :=
  match q with
  | [] => []
  | s :: q' => if str_empty s then q' else after_sentinel q'
  end.


(** The resolutions of the header promise among the events. *)
Definition header_events (evs : list event) : list (shared_state Header) :=
  omap (λ ev, match ev with header_resolved r => Some r | _ => None end) evs.


(** The states the steps of [operator()] lead to. *)
Definition pushed (r : shared_state Buffer) (st : Parser) : Parser :=
  log (output_pushed r) (with_output_queue (m_output_queue st ++ [r]) st).

Definition header_failed (e : exception) (st : Parser) : Parser :=
  log (header_resolved (ready_exception e))
      (with_header_promise (Some (ready_exception e)) (with_header_is_done true st)).

Definition drained (st : Parser) : Parser :=
  {| m_input_queue := after_sentinel (m_input_queue st);
     m_output_queue := m_output_queue st;
     m_header_promise := m_header_promise st;
     m_read_types := m_read_types st;
     m_header_is_done := m_header_is_done st;
     m_input_queue_done := m_input_queue_done st;
     events := events st ++ (input_popped <$> through_sentinel (m_input_queue st)) |}.

(** What the last statement of [operator()] comes to, from the state [st]
    it is reached in ([operator_call_after_run] below). *)
Definition finish (st : Parser) : outcome unit :=
  if m_input_queue_done st then Returns () st
  else if has_sentinel (m_input_queue st) then Returns () (drained st)
  else Blocks (drained st).

(** [needle] occurs in [text]. *)
Definition contains (needle text : string) : Prop :=
  ∃ before after, text = before +:+ needle +:+ after.

(** ** Further members and compositions *)


(** Calls of [register_parser] one after the other, as the format modules
    make them at start-up, with the results they return. *)
Fixpoint register_all (registrations : list (file_format * create_parser_type))
    (this : ParserFactory) : list bool * ParserFactory :=
  match registrations with
  | [] => ([], this)
  | registration :: rest =>
      let first := register_parser registration.1 registration.2 this in
      let others := register_all rest first.2 in
      (first.1 :: others.1, others.2)
  end.

(** The creator of the first registration for [F] in the list. *)
Fixpoint first_creator (F : file_format)
    (registrations : list (file_format * create_parser_type))
  : option create_parser_type :=
  match registrations with
  | [] => None
  | registration :: rest =>
      if decide (registration.1 = F) then Some registration.2
      else first_creator F rest
  end.

(** The calls that succeeded among the results of [register_all]. *)
Definition successes (results : list bool) : nat :=
  length (filter (λ b, b = true) results).

(** ** The loops and the steps of the entry point *)

Ltac run_monad :=
  unfold mbind, M_bind, mret, M_ret, try_catch, read, write, throw,
    send_exception, send_to_output_queue, push_ready, header_promise_set,
    promise_set.

(** The fuel of [drain_queue] is never used up: it satisfies the equation
    of the [do ... while] loop. *)
Lemma drain_queue_loop (st : Parser) :
  drain_queue st
  = (s ← wait_and_pop; if negb (str_empty s) then drain_queue else mret ()) st.
Proof.
  unfold drain_queue at 1. cbn [drain_loop]. run_monad. unfold wait_and_pop.
  destruct (m_input_queue st) as [|s q]; [reflexivity|].
  destruct (str_empty s); reflexivity.
Qed.

Lemma through_sentinel_no_sentinel (q : list string) :
  has_sentinel q = false → through_sentinel q = q ∧ after_sentinel q = [].
Proof.
  induction q as [|s q IH]; [done|]. cbn.
  destruct (str_empty s); [done|]. cbn. intros Hq.
  destruct (IH Hq) as [-> ->]. done.
Qed.

Lemma through_after_sentinel (q : list string) :
  has_sentinel q = true → through_sentinel q ++ after_sentinel q = q.
Proof.
  induction q as [|s q IH]; [done|]. cbn.
  destruct (str_empty s); [done|]. cbn. intros Hq. by rewrite IH.
Qed.


Lemma has_sentinel_elem_of (q : list string) :
  has_sentinel q = true ↔ "" ∈ q.
Proof.
  induction q as [|s q IH]; cbn.
  - rewrite elem_of_nil. done.
  - rewrite elem_of_cons, <- IH. destruct s; cbn; [tauto|].
    split; [tauto|]. intros [?|?]; [discriminate|done].
Qed.

(** What [drain_queue] does: it takes the chunks up to the first empty one
    and returns, and waits for ever when no empty chunk comes. *)
Lemma drain_queue_outcome (st : Parser) :
  drain_queue st
  = if has_sentinel (m_input_queue st)
    then Returns () (drained st)
    else Blocks (drained st).
Proof.
  remember (m_input_queue st) as q eqn:Hq. revert st Hq.
  induction q as [|s q IH]; intros st Hq; rewrite drain_queue_loop;
    run_monad; unfold wait_and_pop; rewrite <- Hq.
  - cbn. f_equal. destruct st; cbn in *; subst.
    unfold drained; cbn. by rewrite app_nil_r.
  - destruct (str_empty s) eqn:Hs; cbn [negb].
    + cbn. rewrite Hs. cbn. f_equal. destruct st; cbn in *; subst.
      unfold drained, log, with_input_queue; cbn. by rewrite Hs.
    + rewrite (IH (log (input_popped s) (with_input_queue q st))) by reflexivity.
      cbn. rewrite Hs. cbn.
      assert (drained (log (input_popped s) (with_input_queue q st)) = drained st) as ->;
        [|reflexivity].
      destruct st; cbn in *; subst.
      unfold drained, log, with_input_queue; cbn. rewrite Hs.
      rewrite fmap_cons, <- app_assoc. reflexivity.
Qed.

(** [operator()] after a [run] that returns. *)
Lemma operator_call_after_return (run : M unit) (st0 st1 : Parser) (u : unit) :
  run st0 = Returns u st1 →
  operator_call run st0 = finish (pushed terminal st1).
Proof.
  intros Hrun. unfold operator_call, finish. run_monad. rewrite Hrun.
  cbn -[drain_queue].
  destruct (m_input_queue_done st1); cbn -[drain_queue]; [reflexivity|].
  by rewrite drain_queue_outcome.
Qed.

(** [operator()] after a [run] that throws, the header promise being
    unsatisfied when [m_header_is_done] is not set. *)
Lemma operator_call_after_throw (run : M unit) (st0 st1 : Parser) (e : exception) :
  run st0 = Throws e st1 →
  (m_header_is_done st1 = false → m_header_promise st1 = None) →
  operator_call run st0
  = finish (pushed terminal (pushed (ready_exception e)
              (if m_header_is_done st1 then st1 else header_failed e st1))).
Proof.
  intros Hrun Hflag. unfold operator_call, finish. run_monad. rewrite Hrun.
  cbn -[drain_queue].
  destruct (m_header_is_done st1) eqn:Hdone; cbn -[drain_queue].
  - destruct (m_input_queue_done st1); cbn -[drain_queue]; [reflexivity|].
    by rewrite drain_queue_outcome.
  - rewrite (Hflag eq_refl). cbn -[drain_queue].
    destruct (m_input_queue_done st1); cbn -[drain_queue]; [reflexivity|].
    by rewrite drain_queue_outcome.
Qed.

(** With the promise satisfied behind the back of [m_header_is_done], the
    handler itself throws: [set_exception] on a satisfied promise.  The
    exception leaves [operator()], which sends nothing and drains nothing. *)
Lemma operator_call_handler_throws (run : M unit) (st0 st1 : Parser) (e : exception) :
  run st0 = Throws e st1 →
  m_header_is_done st1 = false →
  is_resolved (m_header_promise st1) = true →
  operator_call run st0
  = Throws (future_error promise_already_satisfied) (with_header_is_done true st1).
Proof.
  intros Hrun Hdone Hres. unfold operator_call. run_monad. rewrite Hrun. cbn.
  rewrite Hdone. cbn. destruct (m_header_promise st1); [reflexivity|done].
Qed.

Lemma header_flag_inv_guard (st : Parser) :
  header_flag_inv st → m_header_is_done st = false → m_header_promise st = None.
Proof.
  unfold header_flag_inv. intros -> Hres.
  destruct (m_header_promise st); [discriminate|reflexivity].
Qed.

Ltac after_throw Hrun Hinv :=
  rewrite (operator_call_after_throw _ _ _ _ Hrun (header_flag_inv_guard _ Hinv));
  unfold header_flag_inv in Hinv; rewrite Hinv; unfold finish.

(** ** The guarded entry point *)

(** C1, as the code has it.  When [run] throws [e] with [m_header_is_done]
    telling whether the header promise is satisfied, [operator()] turns the
    failure into, in this order: the resolution of the header promise with
    [e], made if and only if the promise was not yet satisfied; one failing
    result appended to the output queue; the terminal empty buffer appended
    after it; the draining of the input queue through its first empty
    chunk, made if [m_input_queue_done] is not set.  Nothing else happens
    on the three channels and no exception leaves [operator()]. *)
Theorem failure_is_converted (run : M unit) (st0 st1 : Parser) (e : exception) :
  run st0 = Throws e st1 →
  header_flag_inv st1 →
  let o := operator_call run st0 in
  events (final_state o)
  = events st1
      ++ (if is_resolved (m_header_promise st1) then []
          else [header_resolved (ready_exception e)])
      ++ [output_pushed (ready_exception e); output_pushed terminal]
      ++ (if m_input_queue_done st1 then []
          else input_popped <$> through_sentinel (m_input_queue st1))
  ∧ m_header_promise (final_state o)
    = (if is_resolved (m_header_promise st1) then m_header_promise st1
       else Some (ready_exception e))
  ∧ m_output_queue (final_state o)
    = m_output_queue st1 ++ [ready_exception e; terminal]
  ∧ m_input_queue (final_state o)
    = (if m_input_queue_done st1 then m_input_queue st1
       else after_sentinel (m_input_queue st1))
  ∧ o = (if m_input_queue_done st1 || has_sentinel (m_input_queue st1)
         then Returns () (final_state o)
         else Blocks (final_state o)).
Proof.
  intros Hrun Hinv o. subst o. after_throw Hrun Hinv.
  destruct (is_resolved (m_header_promise st1)), (m_input_queue_done st1) eqn:Hdone;
    cbn -[has_sentinel]; rewrite ?Hdone; cbn -[has_sentinel];
    try destruct (has_sentinel (m_input_queue st1)); cbn;
    rewrite <- ?app_assoc; cbn; rewrite ?app_nil_r; done.
Qed.

Lemma operator_call_after_run (run : M unit) (st0 st1 : Parser) (how : run_end) :
  ends (run st0) = Some (how, st1) →
  (∀ e, how = threw e → header_flag_inv st1) →
  operator_call run st0
  = finish (pushed terminal
      match how with
      | returned => st1
      | threw e =>
          pushed (ready_exception e)
            (if is_resolved (m_header_promise st1) then st1 else header_failed e st1)
      end).
Proof.
  intros Hends Hinv. destruct (run st0) as [u st|e st|st] eqn:Hrun;
    cbn in Hends; simplify_eq.
  - by rewrite (operator_call_after_return _ _ _ _ Hrun).
  - specialize (Hinv e eq_refl).
    rewrite (operator_call_after_throw _ _ _ _ Hrun (header_flag_inv_guard _ Hinv)).
    unfold header_flag_inv in Hinv. by rewrite Hinv.
Qed.




Lemma final_state_finish (st : Parser) :
  final_state (finish st) = if m_input_queue_done st then st else drained st.
Proof.
  unfold finish. destruct (m_input_queue_done st); [done|].
  by destruct (has_sentinel (m_input_queue st)).
Qed.

Lemma escapes_finish (st : Parser) : escapes (finish st) = false.
Proof.
  unfold finish. destruct (m_input_queue_done st); [done|].
  by destruct (has_sentinel (m_input_queue st)).
Qed.

Lemma header_events_popped (chunks : list string) :
  header_events (input_popped <$> chunks) = [].
Proof. induction chunks; done. Qed.

Lemma header_events_app (evs1 evs2 : list event) :
  header_events (evs1 ++ evs2) = header_events evs1 ++ header_events evs2.
Proof. apply omap_app. Qed.

(** Draining takes chunks and does nothing else. *)
Lemma drained_frame (st : Parser) :
  let st' := if m_input_queue_done st then st else drained st in
  m_header_promise st' = m_header_promise st
  ∧ m_header_is_done st' = m_header_is_done st
  ∧ m_output_queue st' = m_output_queue st
  ∧ header_events (events st') = header_events (events st)
  ∧ ∃ pops, events st' = events st ++ pops.
Proof.
  destruct (m_input_queue_done st); cbn.
  - repeat split; try done. exists []. by rewrite app_nil_r.
  - rewrite header_events_app, header_events_popped, app_nil_r.
    repeat split; try done. eexists; reflexivity.
Qed.

(** C5, as the code has it.  When [run] has ended with [m_header_is_done]
    telling whether the header promise is satisfied, [operator()] makes no
    attempt to resolve a satisfied promise (no [std::future_error] arises):
    it resolves the promise itself exactly when [run] threw and had left it
    unsatisfied, with the exception thrown and before it sends the failing
    result; a promise [run] had satisfied keeps its result; after a [run]
    that threw the promise is satisfied.  After a [run] that returned
    [operator()] resolves nothing: the promise is satisfied if and only if
    [run] satisfied it. *)
Theorem header_resolution_is_guarded (run : M unit) (st0 st1 : Parser) (how : run_end) :
  ends (run st0) = Some (how, st1) →
  header_flag_inv st1 →
  let o := operator_call run st0 in
  escapes o = false
  ∧ header_flag_inv (final_state o)
  ∧ header_events (events (final_state o))
    = header_events (events st1)
        ++ match how, m_header_promise st1 with
           | threw e, None => [ready_exception e]
           | _, _ => []
           end
  ∧ m_header_promise (final_state o)
    = match m_header_promise st1, how with
      | Some r, _ => Some r
      | None, threw e => Some (ready_exception e)
      | None, returned => None
      end
  ∧ (∀ e, how = threw e →
       is_resolved (m_header_promise (final_state o)) = true
       ∧ ∃ later,
           events (final_state o)
           = events st1
               ++ (if is_resolved (m_header_promise st1) then []
                   else [header_resolved (ready_exception e)])
               ++ output_pushed (ready_exception e) :: later).
Proof.
  intros Hends Hinv o. subst o.
  rewrite (operator_call_after_run _ _ _ _ Hends (λ _ _, Hinv)).
  match goal with |- context [finish ?st] => set (st2 := st) end.
  rewrite final_state_finish, escapes_finish. unfold header_flag_inv in *.
  destruct (drained_frame st2) as (-> & -> & _ & -> & pops & ->). subst st2.
  destruct how as [|e], (m_header_promise st1) as [r|] eqn:Hp; cbn in *;
    rewrite ?Hp, ?header_events_app; cbn; rewrite ?app_nil_r.
  - split_and!; done.
  - split_and!; done.
  - split_and!; try done. intros e' [= <-]. split; [done|].
    eexists. rewrite <- !app_assoc. reflexivity.
  - split_and!; try done. intros e' [= <-]. split; [done|].
    eexists. rewrite <- !app_assoc. reflexivity.
Qed.

(** C10.  When [run] returns, [operator()] does not touch the header
    promise: it makes no resolution, with a value or with an error, and
    leaves the promise and [m_header_is_done] as [run] left them; a promise
    [run] left unsatisfied is unsatisfied when [operator()] is over. *)
Theorem success_leaves_header_untouched (run : M unit) (st0 st1 : Parser) :
  run st0 = Returns () st1 →
  let o := operator_call run st0 in
  escapes o = false
  ∧ header_events (events (final_state o)) = header_events (events st1)
  ∧ m_header_promise (final_state o) = m_header_promise st1
  ∧ m_header_is_done (final_state o) = m_header_is_done st1
  ∧ (is_resolved (m_header_promise st1) = false →
     is_resolved (m_header_promise (final_state o)) = false).
Proof.
  intros Hrun o. subst o.
  rewrite (operator_call_after_return _ _ _ _ Hrun).
  rewrite final_state_finish, escapes_finish.
  destruct (drained_frame (pushed terminal st1)) as (-> & -> & _ & -> & _).
  cbn. rewrite header_events_app. cbn. rewrite app_nil_r. done.
Qed.

(** ** The registry *)

Lemma register_parser_absent (F : file_format) (f : create_parser_type)
    (this : ParserFactory) :
  m_callbacks this !! F = None →
  register_parser F f this = (true, {| m_callbacks := <[F := f]> (m_callbacks this) |}).
Proof. intros Hnone. unfold register_parser, map_insert. by rewrite Hnone. Qed.

Lemma register_parser_present (F : file_format) (f g : create_parser_type)
    (this : ParserFactory) :
  m_callbacks this !! F = Some g →
  register_parser F f this = (false, this).
Proof.
  intros Hsome. unfold register_parser, map_insert. rewrite Hsome. cbn.
  by destruct this.
Qed.

(** C6.  On a registry without the format [F], [register_parser F f1]
    returns [true] and inserts the mapping; a following
    [register_parser F f2] returns [false] and leaves the registry as it
    is, and [get_creator_function] for a file of format [F] gives [f1]. *)
Theorem register_parser_no_overwrite (F : file_format) (f1 f2 : create_parser_type)
    (this : ParserFactory) :
  m_callbacks this !! F = None →
  let first := register_parser F f1 this in
  let second := register_parser F f2 first.2 in
  first.1 = true
  ∧ m_callbacks first.2 = <[F := f1]> (m_callbacks this)
  ∧ second.1 = false
  ∧ second.2 = first.2
  ∧ ∀ name, get_creator_function {| filename := name; format := F |} second.2 = inr f1.
Proof.
  intros Hnone first second. subst first second.
  rewrite (register_parser_absent _ _ _ Hnone). cbn [fst snd].
  rewrite (register_parser_present F f2 f1) by apply lookup_insert_eq.
  cbn [fst snd m_callbacks]. split_and!; try done.
  intros name. unfold get_creator_function. cbn [m_callbacks format].
  by rewrite lookup_insert_eq.
Qed.

Lemma contains_append (needle before after : string) :
  contains needle (before +:+ needle +:+ after).
Proof. by exists before, after. Qed.

Lemma string_app_assoc (s1 s2 s3 : string) :
  (s1 +:+ s2) +:+ s3 = s1 +:+ s2 +:+ s3.
Proof.
  induction s1 as [|c s1 IH]; [done|].
  change (String c ((s1 +:+ s2) +:+ s3) = String c (s1 +:+ s2 +:+ s3)).
  by rewrite IH.
Qed.

(** C7.  For a file whose format has no registered creator,
    [get_creator_function] fails with a [std::runtime_error] whose message
    contains the file's name and the format's display name as they are; for
    a registered format it returns the stored creator. *)
Theorem get_creator_function_result (file : File) (this : ParserFactory) :
  match m_callbacks this !! format file with
  | None =>
      ∃ message,
        get_creator_function file this = inl (runtime_error message)
        ∧ contains (filename file) message
        ∧ contains (as_string (format file)) message
  | Some create_function =>
      get_creator_function file this = inr create_function
  end.
Proof.
  unfold get_creator_function.
  destruct (m_callbacks this !! format file) as [create_function|]; [done|].
  eexists. split; [reflexivity|]. split.
  - rewrite !string_app_assoc. apply contains_append.
  - rewrite (string_app_assoc _ (as_string (format file))).
    apply contains_append.
Qed.

(** ** The header *)

(** C8.  A default-constructed [Header] has no multiple object versions,
    no dense nodes, an empty generator and default-constructed bounds. *)
Theorem Header_default_fields :
  has_multiple_object_versions Header_default = false
  ∧ pbf_has_dense_nodes Header_default = false
  ∧ generator Header_default = ""
  ∧ bounds Header_default = Bounds_default.
Proof. done. Qed.

(** C9.  Called on a live object, each setter of [Header] returns the
    address of that object and changes the store at that address only; the
    object has the given value in the setter's field and its three other
    fields as before.  Each getter returns its field and leaves the store
    as it is. *)
Theorem Header_setters_frame (this : loc) (σ : store) (h : Header)
    (b : Bounds) (v d : bool) (g : string) :
  (σ : gmap loc Header) !! this = Some h →
  (∃ h', Header_bounds_set this b σ = Some (this, <[this := h']> σ)
     ∧ bounds h' = b
     ∧ has_multiple_object_versions h' = has_multiple_object_versions h
     ∧ generator h' = generator h
     ∧ pbf_has_dense_nodes h' = pbf_has_dense_nodes h)
  ∧ (∃ h', Header_has_multiple_object_versions_set this v σ = Some (this, <[this := h']> σ)
     ∧ bounds h' = bounds h
     ∧ has_multiple_object_versions h' = v
     ∧ generator h' = generator h
     ∧ pbf_has_dense_nodes h' = pbf_has_dense_nodes h)
  ∧ (∃ h', Header_generator_set this g σ = Some (this, <[this := h']> σ)
     ∧ bounds h' = bounds h
     ∧ has_multiple_object_versions h' = has_multiple_object_versions h
     ∧ generator h' = g
     ∧ pbf_has_dense_nodes h' = pbf_has_dense_nodes h)
  ∧ (∃ h', Header_pbf_has_dense_nodes_set this d σ = Some (this, <[this := h']> σ)
     ∧ bounds h' = bounds h
     ∧ has_multiple_object_versions h' = has_multiple_object_versions h
     ∧ generator h' = generator h
     ∧ pbf_has_dense_nodes h' = d)
  ∧ Header_bounds this σ = Some (bounds h, σ)
  ∧ Header_has_multiple_object_versions this σ = Some (has_multiple_object_versions h, σ)
  ∧ Header_generator this σ = Some (generator h, σ)
  ∧ Header_pbf_has_dense_nodes this σ = Some (pbf_has_dense_nodes h, σ).
Proof.
  intros Hlive.
  unfold Header_bounds_set, Header_has_multiple_object_versions_set,
    Header_generator_set, Header_pbf_has_dense_nodes_set, Header_bounds,
    Header_has_multiple_object_versions, Header_generator,
    Header_pbf_has_dense_nodes.
  rewrite Hlive. cbn.
  split_and!; try done; eexists; (split; [reflexivity|done]).
Qed.

(** ** More on the entry point *)

(** [operator()] in all the cases of [run] and of the guard. *)
Lemma operator_call_cases (run : M unit) (st0 : Parser) :
  operator_call run st0
  = match run st0 with
    | Returns _ st1 => finish (pushed terminal st1)
    | Throws e st1 =>
        if m_header_is_done st1
        then finish (pushed terminal (pushed (ready_exception e) st1))
        else if is_resolved (m_header_promise st1)
        then Throws (future_error promise_already_satisfied)
               (with_header_is_done true st1)
        else finish (pushed terminal
                       (pushed (ready_exception e) (header_failed e st1)))
    | Blocks st1 => Blocks st1
    end.
Proof.
  destruct (run st0) as [u st1|e st1|st1] eqn:Hrun.
  - exact (operator_call_after_return _ _ _ _ Hrun).
  - destruct (m_header_is_done st1) eqn:Hdone.
    + rewrite (operator_call_after_throw _ _ _ _ Hrun) by congruence.
      by rewrite Hdone.
    + destruct (is_resolved (m_header_promise st1)) eqn:Hres.
      * exact (operator_call_handler_throws _ _ _ _ Hrun Hdone Hres).
      * rewrite (operator_call_after_throw _ _ _ _ Hrun).
        -- by rewrite Hdone.
        -- intros _. by destruct (m_header_promise st1).
  - unfold operator_call. run_monad. by rewrite Hrun.
Qed.

Lemma finish_returns (st : Parser) :
  (∃ st', finish st = Returns () st')
  ↔ (m_input_queue_done st = false → "" ∈ m_input_queue st).
Proof.
  unfold finish. rewrite <- has_sentinel_elem_of.
  destruct (m_input_queue_done st).
  - split; [done|]. intros _. by eexists.
  - destruct (has_sentinel (m_input_queue st)).
    + split; [done|]. intros _. by eexists.
    + split; [by intros [? ?]|]. intros Hs. by specialize (Hs eq_refl).
Qed.

(** X1.  When [run] throws after the header promise was satisfied and
    with [m_header_is_done] still unset, [operator()] does not turn the
    failure into results: [set_exception] throws in the handler, and the
    [std::future_error] leaves [operator()], which has set
    [m_header_is_done] and done nothing else.  The output queue gets no
    failing result and no terminal buffer, the input queue is not drained,
    and the header promise keeps its result. *)
Theorem handler_exception_escapes (run : M unit) (st0 st1 : Parser) (e : exception) :
  run st0 = Throws e st1 →
  m_header_is_done st1 = false →
  is_resolved (m_header_promise st1) = true →
  let o := operator_call run st0 in
  o = Throws (future_error promise_already_satisfied) (final_state o)
  ∧ m_header_is_done (final_state o) = true
  ∧ m_header_promise (final_state o) = m_header_promise st1
  ∧ m_output_queue (final_state o) = m_output_queue st1
  ∧ m_input_queue (final_state o) = m_input_queue st1
  ∧ m_input_queue_done (final_state o) = m_input_queue_done st1
  ∧ events (final_state o) = events st1.
Proof.
  intros Hrun Hdone Hres o. subst o.
  rewrite operator_call_cases, Hrun, Hdone, Hres. done.
Qed.

(** X2.  [operator()] returns only after a [run] that ended, by returning
    or by throwing; if [run] threw with [m_header_is_done] unset, the
    header promise was not satisfied; and unless [m_input_queue_done] was
    set, the empty chunk was among the chunks still to come.  What it
    returns with has the terminal buffer last in the output queue. *)
Theorem operator_call_returns_only_if (run : M unit) (st0 st2 : Parser) :
  operator_call run st0 = Returns () st2 →
  ∃ how st1,
    ends (run st0) = Some (how, st1)
    ∧ (∀ e, how = threw e →
         m_header_is_done st1 = false → m_header_promise st1 = None)
    ∧ (m_input_queue_done st1 = false → "" ∈ m_input_queue st1)
    ∧ last (m_output_queue st2) = Some terminal.
Proof.
  rewrite operator_call_cases.
  assert (∀ st, finish (pushed terminal st) = Returns () st2 →
            (m_input_queue_done st = false → "" ∈ m_input_queue st)
            ∧ last (m_output_queue st2) = Some terminal) as Hfinish.
  { intros st Hret. split.
    - exact (proj1 (finish_returns _) (ex_intro _ st2 Hret)).
    - change st2 with (final_state (Returns () st2)). rewrite <- Hret.
      rewrite final_state_finish.
      destruct (m_input_queue_done (pushed terminal st)); cbn; apply last_snoc. }
  destruct (run st0) as [u st1|e st1|st1]; cbn [ends].
  - intros Hret. destruct (Hfinish _ Hret) as [Hsent Hlast].
    exists returned, st1. split_and!; [done|done|exact Hsent|exact Hlast].
  - destruct (m_header_is_done st1) eqn:Hdone.
    + intros Hret. destruct (Hfinish _ Hret) as [Hsent Hlast].
      exists (threw e), st1. split_and!; [done| |exact Hsent|exact Hlast].
      intros e0 _. by rewrite Hdone.
    + destruct (m_header_promise st1) as [r|] eqn:Hp; cbn [is_resolved].
      * intros Hret. discriminate Hret.
      * intros Hret. destruct (Hfinish _ Hret) as [Hsent Hlast].
        exists (threw e), st1. split_and!; [done| |exact Hsent|exact Hlast].
        intros e0 _ _. exact Hp.
  - intros Hret. discriminate Hret.
Qed.

(** X3.  Whatever [run] did before it ended, [operator()] keeps
    [m_read_types] and [m_input_queue_done] as they are (draining does not
    set the flag), never unsets [m_header_is_done], never changes the result
    of a satisfied header promise, only appends to the output queue and to
    the log, and only takes chunks from the front of the input queue. *)
Theorem operator_call_frame (run : M unit) (st0 st1 : Parser) (how : run_end) :
  ends (run st0) = Some (how, st1) →
  let st2 := final_state (operator_call run st0) in
  m_read_types st2 = m_read_types st1
  ∧ m_input_queue_done st2 = m_input_queue_done st1
  ∧ (m_header_is_done st1 = true → m_header_is_done st2 = true)
  ∧ (∀ r, m_header_promise st1 = Some r → m_header_promise st2 = Some r)
  ∧ (∃ sent, m_output_queue st2 = m_output_queue st1 ++ sent)
  ∧ (∃ taken, m_input_queue st1 = taken ++ m_input_queue st2)
  ∧ (∃ evs, events st2 = events st1 ++ evs).
Proof.
  intros Hends st2. subst st2. rewrite operator_call_cases.
  assert (∀ st,
    m_read_types st = m_read_types st1 →
    m_input_queue_done st = m_input_queue_done st1 →
    (m_header_is_done st1 = true → m_header_is_done st = true) →
    (∀ r, m_header_promise st1 = Some r → m_header_promise st = Some r) →
    (∃ sent, m_output_queue st = m_output_queue st1 ++ sent) →
    m_input_queue st = m_input_queue st1 →
    (∃ evs, events st = events st1 ++ evs) →
    let st2 := final_state (finish st) in
    m_read_types st2 = m_read_types st1
    ∧ m_input_queue_done st2 = m_input_queue_done st1
    ∧ (m_header_is_done st1 = true → m_header_is_done st2 = true)
    ∧ (∀ r, m_header_promise st1 = Some r → m_header_promise st2 = Some r)
    ∧ (∃ sent, m_output_queue st2 = m_output_queue st1 ++ sent)
    ∧ (∃ taken, m_input_queue st1 = taken ++ m_input_queue st2)
    ∧ (∃ evs, events st2 = events st1 ++ evs)) as Hfinish.
  { intros st Hrt Hqd Hhd Hp Hout Hin [evs Hev]. cbn zeta.
    rewrite final_state_finish. destruct (m_input_queue_done st) eqn:Hdone.
    - split_and!; try done; try congruence; [|by exists evs].
      exists []. by rewrite Hin.
    - cbn. split_and!; try done; try congruence.
      + exists (through_sentinel (m_input_queue st1)). rewrite Hin.
        destruct (has_sentinel (m_input_queue st1)) eqn:Hs.
        * symmetry. by apply through_after_sentinel.
        * destruct (through_sentinel_no_sentinel _ Hs) as [-> ->].
          by rewrite app_nil_r.
      + eexists. rewrite Hev, <- app_assoc. reflexivity. }
  destruct (run st0) as [u st|e st|st]; cbn [ends] in Hends; simplify_eq.
  - apply Hfinish; cbn; try done.
    + by eexists.
    + by eexists.
  - destruct (m_header_is_done st1) eqn:Hdone.
    + apply Hfinish; cbn; try done.
      * eexists. rewrite <- app_assoc. reflexivity.
      * eexists. rewrite <- app_assoc. reflexivity.
    + destruct (m_header_promise st1) as [r|] eqn:Hp; cbn [is_resolved].
      * cbn. rewrite Hp. split_and!; try done.
        -- exists []. by rewrite app_nil_r.
        -- by exists [].
        -- exists []. by rewrite app_nil_r.
      * apply Hfinish; cbn; try done.
        -- eexists. rewrite <- app_assoc. reflexivity.
        -- eexists. rewrite <- !app_assoc. reflexivity.
Qed.

(** X4.  After a [run] that threw, [m_header_is_done] is set, and the
    header promise holds what [run] had given it or, if [run] had left it
    unsatisfied, the exception of [run]; but when [run] had set
    [m_header_is_done] without satisfying the promise, [operator()] leaves
    the promise unsatisfied. *)
Theorem header_after_failure (run : M unit) (st0 st1 : Parser) (e : exception) :
  run st0 = Throws e st1 →
  let st2 := final_state (operator_call run st0) in
  m_header_is_done st2 = true
  ∧ m_header_promise st2
    = match m_header_promise st1 with
      | Some r => Some r
      | None =>
          if m_header_is_done st1 then None else Some (ready_exception e)
      end.
Proof.
  intros Hrun st2. subst st2. rewrite operator_call_cases, Hrun.
  destruct (m_header_is_done st1) eqn:Hdone.
  - rewrite final_state_finish.
    match goal with |- context [drained ?s] => set (st := s) end.
    destruct (drained_frame st) as (-> & -> & _). subst st. cbn.
    split; [done|]. by destruct (m_header_promise st1).
  - destruct (m_header_promise st1) as [r|] eqn:Hp; cbn [is_resolved].
    + cbn. by rewrite Hp.
    + rewrite final_state_finish.
      match goal with |- context [drained ?s] => set (st := s) end.
      destruct (drained_frame st) as (-> & -> & _). subst st. done.
Qed.

(** X5.  [drain_queue] never throws.  When the queue holds an empty chunk
    it returns, having taken the chunks before the first empty one, none of
    them empty, and that empty chunk, and it leaves the chunks after it;
    when there is none it takes every chunk and waits for ever.  It changes
    nothing but the input queue. *)
Theorem drain_queue_exact (st : Parser) :
  let o := drain_queue st in
  let st' := final_state o in
  (if has_sentinel (m_input_queue st)
   then ∃ data,
          m_input_queue st = data ++ "" :: m_input_queue st'
          ∧ Forall (λ s, s ≠ "") data
          ∧ o = Returns () st'
          ∧ events st' = events st ++ (input_popped <$> data ++ [""])
   else o = Blocks st'
        ∧ m_input_queue st' = []
        ∧ events st' = events st ++ (input_popped <$> m_input_queue st))
  ∧ m_output_queue st' = m_output_queue st
  ∧ m_header_promise st' = m_header_promise st
  ∧ m_read_types st' = m_read_types st
  ∧ m_header_is_done st' = m_header_is_done st
  ∧ m_input_queue_done st' = m_input_queue_done st.
Proof.
  intros o st'. subst o st'. rewrite drain_queue_outcome.
  split; [|by destruct (has_sentinel (m_input_queue st))].
  destruct (has_sentinel (m_input_queue st)) eqn:Hs; cbn [final_state].
  - assert (∀ q, has_sentinel q = true →
              ∃ data, q = data ++ "" :: after_sentinel q
                      ∧ Forall (λ s, s ≠ "") data
                      ∧ through_sentinel q = data ++ [""]) as Hsplit.
    { induction q as [|s q IH]; [done|]. cbn.
      destruct s as [|c s]; cbn.
      - intros _. by exists [].
      - intros Hq. destruct (IH Hq) as (data & Hdata & Hne & Hthrough).
        exists (String c s :: data). split_and!.
        + cbn. by f_equal.
        + by constructor.
        + cbn. by f_equal. }
    destruct (Hsplit _ Hs) as (data & Hdata & Hne & Hthrough).
    exists data. cbn. rewrite Hthrough. done.
  - destruct (through_sentinel_no_sentinel _ Hs) as [Hthrough Hafter].
    cbn. by rewrite Hthrough, Hafter.
Qed.

(** ** More on the registry *)

Lemma register_parser_lookup (F G : file_format) (f : create_parser_type)
    (this : ParserFactory) :
  m_callbacks (register_parser F f this).2 !! G
  = match m_callbacks this !! G with
    | Some g => Some g
    | None => if decide (F = G) then Some f else None
    end.
Proof.
  unfold register_parser, map_insert.
  destruct (m_callbacks this !! F) as [g|] eqn:HF; cbn.
  - destruct (m_callbacks this !! G) as [g'|] eqn:HG; [done|].
    case_decide; [congruence|done].
  - rewrite lookup_insert. case_decide.
    + subst G. by rewrite HF.
    + by destruct (m_callbacks this !! G).
Qed.

(** X7.  [register_parser] returns [true] exactly when the format had no
    creator.  It never changes or removes a creator that is registered and
    never touches another format; after it, looking up a file of the format
    does not fail, and gives the new creator if the call returned [true] and
    the one registered before if it returned [false]. *)
Theorem register_parser_result (F : file_format) (f : create_parser_type)
    (this : ParserFactory) :
  let result := register_parser F f this in
  (result.1 = true ↔ m_callbacks this !! F = None)
  ∧ (∀ G g, m_callbacks this !! G = Some g → m_callbacks result.2 !! G = Some g)
  ∧ (∀ G, G ≠ F → m_callbacks result.2 !! G = m_callbacks this !! G)
  ∧ ∀ name, ∃ g,
      get_creator_function {| filename := name; format := F |} result.2 = inr g
      ∧ if result.1 then g = f else m_callbacks this !! F = Some g.
Proof.
  intros result. subst result. split_and!.
  - unfold register_parser, map_insert.
    by destruct (m_callbacks this !! F).
  - intros G g HG. by rewrite register_parser_lookup, HG.
  - intros G HG. rewrite register_parser_lookup.
    destruct (m_callbacks this !! G); [done|]. case_decide; congruence.
  - intros name. unfold get_creator_function. cbn [format].
    rewrite register_parser_lookup.
    unfold register_parser, map_insert.
    destruct (m_callbacks this !! F) as [g|]; cbn.
    + by exists g.
    + exists f. by case_decide.
Qed.

Lemma register_all_lookup (registrations : list (file_format * create_parser_type))
    (this : ParserFactory) (F : file_format) :
  m_callbacks (register_all registrations this).2 !! F
  = match m_callbacks this !! F with
    | Some g => Some g
    | None => first_creator F registrations
    end.
Proof.
  revert this. induction registrations as [|[G g] rest IH]; intros this.
  - cbn. by destruct (m_callbacks this !! F).
  - cbn [register_all first_creator fst snd]. rewrite IH, register_parser_lookup.
    destruct (m_callbacks this !! F); [done|]. by case_decide.
Qed.

(** X8.  After any sequence of calls of [register_parser] on the registry
    as its constructor makes it, [get_creator_function] gives, for a file,
    the creator of the first call made for its format, whatever was
    registered for that format later, and fails as on the empty registry
    when no call was made for it. *)
Theorem register_all_first_wins
    (registrations : list (file_format * create_parser_type)) (file : File) :
  get_creator_function file (register_all registrations ParserFactory_new).2
  = match first_creator (format file) registrations with
    | Some create_function => inr create_function
    | None => get_creator_function file ParserFactory_new
    end.
Proof.
  unfold get_creator_function. rewrite register_all_lookup.
  cbn [ParserFactory_new m_callbacks]. rewrite lookup_empty.
  by destruct (first_creator (format file) registrations).
Qed.

(** X9.  A sequence of calls of [register_parser] returns one result for
    each call, and the registry grows by one format for each call that
    returned [true] and by nothing else. *)
Theorem register_all_size (registrations : list (file_format * create_parser_type))
    (this : ParserFactory) :
  let result := register_all registrations this in
  length result.1 = length registrations
  ∧ size (m_callbacks result.2) = size (m_callbacks this) + successes result.1.
Proof.
  revert this. induction registrations as [|[G g] rest IH]; intros this.
  - cbn. unfold successes. cbn. split; [done|lia].
  - cbn [register_all fst snd]. cbn zeta.
    destruct (IH (register_parser G g this).2) as [Hlen Hsize].
    cbn [fst snd]. split; [cbn; by rewrite Hlen|].
    rewrite Hsize. unfold register_parser, map_insert, successes.
    destruct (m_callbacks this !! G) as [g'|] eqn:HG; cbn [fst snd negb].
    + rewrite filter_cons_False by done. done.
    + rewrite filter_cons_True by done. cbn [length m_callbacks].
      rewrite (map_size_insert_None _ _ _ HG). lia.
Qed.

(** ** More on the header *)

Ltac header_chain this σ :=
  unfold Header_bounds_set, Header_has_multiple_object_versions_set,
    Header_generator_set, Header_pbf_has_dense_nodes_set;
  unfold store in *;
  destruct (σ !! this) as [h|]; [|reflexivity];
  cbn; rewrite ?lookup_insert_eq; cbn; rewrite ?insert_insert_eq; reflexivity.

(** X10.  Setters of different fields commute: calling two of them on an
    object, one on the reference the other returns, gives the same object
    and the same store in either order. *)
Theorem Header_setters_commute (this : loc) (σ : store)
    (b : Bounds) (v d : bool) (g : string) :
  ('(r, σ') ← Header_bounds_set this b σ; Header_has_multiple_object_versions_set r v σ')
  = ('(r, σ') ← Header_has_multiple_object_versions_set this v σ; Header_bounds_set r b σ')
  ∧ ('(r, σ') ← Header_bounds_set this b σ; Header_generator_set r g σ')
    = ('(r, σ') ← Header_generator_set this g σ; Header_bounds_set r b σ')
  ∧ ('(r, σ') ← Header_bounds_set this b σ; Header_pbf_has_dense_nodes_set r d σ')
    = ('(r, σ') ← Header_pbf_has_dense_nodes_set this d σ; Header_bounds_set r b σ')
  ∧ ('(r, σ') ← Header_has_multiple_object_versions_set this v σ; Header_generator_set r g σ')
    = ('(r, σ') ← Header_generator_set this g σ; Header_has_multiple_object_versions_set r v σ')
  ∧ ('(r, σ') ← Header_has_multiple_object_versions_set this v σ;
       Header_pbf_has_dense_nodes_set r d σ')
    = ('(r, σ') ← Header_pbf_has_dense_nodes_set this d σ;
         Header_has_multiple_object_versions_set r v σ')
  ∧ ('(r, σ') ← Header_generator_set this g σ; Header_pbf_has_dense_nodes_set r d σ')
    = ('(r, σ') ← Header_pbf_has_dense_nodes_set this d σ; Header_generator_set r g σ').
Proof. split_and!; header_chain this σ. Qed.

(** X11.  Calling a setter again overwrites: the second value is the one
    the object has, and the store is the one the second call alone gives. *)
Theorem Header_setter_last_wins (this : loc) (σ : store)
    (b1 b2 : Bounds) (v1 v2 d1 d2 : bool) (g1 g2 : string) :
  ('(r, σ') ← Header_bounds_set this b1 σ; Header_bounds_set r b2 σ')
  = Header_bounds_set this b2 σ
  ∧ ('(r, σ') ← Header_has_multiple_object_versions_set this v1 σ;
       Header_has_multiple_object_versions_set r v2 σ')
    = Header_has_multiple_object_versions_set this v2 σ
  ∧ ('(r, σ') ← Header_generator_set this g1 σ; Header_generator_set r g2 σ')
    = Header_generator_set this g2 σ
  ∧ ('(r, σ') ← Header_pbf_has_dense_nodes_set this d1 σ;
       Header_pbf_has_dense_nodes_set r d2 σ')
    = Header_pbf_has_dense_nodes_set this d2 σ.
Proof. split_and!; header_chain this σ. Qed.


End Osmium.

(** * The properties on concrete runs

    Buffers are lists of strings, bounds and file formats are numbers, and
    creators are named by strings. *)

(** C1 on a decoder that rejects the first chunk: the header is resolved
    with the error, the failing result and the terminal buffer follow, and
    the two chunks left are taken off the input queue. *)
Lemma failure_is_converted_witness :
  let run : @M nat (list string) unit :=
    chunk_decoder
      (λ s, if String.eqb s "a" then inl (decode_error "bad chunk") else inr [[s]])
      (Header_default 0) in
  let o := operator_call [] run (Parser_new ["a"; "b"; ""] [] None 0) in
  o = Returns () (final_state o)
  ∧ events (final_state o)
    = [input_popped "a";
       header_resolved (ready_exception (decode_error "bad chunk"));
       output_pushed (ready_exception (decode_error "bad chunk"));
       output_pushed (ready_value []);
       input_popped "b"; input_popped ""]
  ∧ m_header_promise (final_state o)
    = Some (ready_exception (decode_error "bad chunk"))
  ∧ m_output_queue (final_state o)
    = [ready_exception (decode_error "bad chunk"); ready_value []]
  ∧ m_input_queue (final_state o) = [].
Proof.
  intros run o.
  pose proof (failure_is_converted [] run (Parser_new ["a"; "b"; ""] [] None 0)
                _ _ eq_refl eq_refl) as (Hev & Hp & Hout & Hin & Ho).
  split; [exact Ho|]. split; [exact Hev|]. split; [exact Hp|].
  split; [exact Hout|exact Hin].
Defined.




(** C5 as stated fails: a [run] that returns at once, as an empty override
    does, leaves the header promise unsatisfied, and [operator()] completes
    without a resolution. *)
Lemma header_left_unresolved :
  let run : @M nat (list string) unit := mret () in
  let o := operator_call [] run (Parser_new [""] [] None 0) in
  o = Returns () (final_state o)
  ∧ m_header_promise (final_state o) = None
  ∧ header_events (events (final_state o)) = [].
Proof. done. Qed.

(** C5 as amended, on a decoder that fails on the second chunk, the header
    being resolved after the first: [operator()] leaves the header as it
    is. *)
Lemma header_resolution_is_guarded_witness :
  let header := assign_generator "test" (Header_default 0) in
  let run : @M nat (list string) unit :=
    chunk_decoder
      (λ s, if String.eqb s "b" then inl (decode_error "bad chunk") else inr [[s]])
      header in
  let o := operator_call [] run (Parser_new ["a"; "b"; "c"; ""] [] None 0) in
  escapes o = false
  ∧ header_events (events (final_state o)) = [ready_value header]
  ∧ m_header_promise (final_state o) = Some (ready_value header).
Proof.
  intros header run o.
  pose proof (header_resolution_is_guarded [] run
                (Parser_new ["a"; "b"; "c"; ""] [] None 0) _ (threw _)
                eq_refl eq_refl) as (Hesc & _ & Hev & Hp & _).
  split; [exact Hesc|]. split; [exact Hev|exact Hp].
Defined.

(** C6 on an empty registry. *)
Lemma register_parser_no_overwrite_witness :
  let this : @ParserFactory nat _ _ string := ParserFactory_new in
  let first := register_parser 2 "pbf parser" this in
  let second := register_parser 2 "other parser" first.2 in
  first.1 = true
  ∧ second.1 = false
  ∧ second.2 = first.2
  ∧ get_creator_function (λ _, "PBF") {| filename := "planet.osm.pbf"; format := 2 |} second.2
    = inr "pbf parser".
Proof.
  intros this first second.
  pose proof (register_parser_no_overwrite (λ _, "PBF") 2 "pbf parser" "other parser"
                this eq_refl) as (H1 & _ & H2 & H3 & H4).
  split; [exact H1|]. split; [exact H2|]. split; [exact H3|].
  exact (H4 "planet.osm.pbf").
Defined.

(** C9 on a store with one default-constructed header. *)
Lemma Header_setters_frame_witness :
  let σ : @store nat := {[ 1%positive := Header_default 0 ]} in
  ∃ h',
    Header_generator_set 1%positive "test" σ = Some (1%positive, <[1%positive := h']> σ)
    ∧ bounds h' = 0
    ∧ has_multiple_object_versions h' = false
    ∧ generator h' = "test"
    ∧ pbf_has_dense_nodes h' = false.
Proof.
  intros σ.
  pose proof (Header_setters_frame 1%positive σ (Header_default 0) 7 true true "test"
                eq_refl) as (_ & _ & Hgen & _).
  exact Hgen.
Defined.

(** C10 on the end-to-end scenario: the header is the one [run] gave. *)
Lemma success_leaves_header_untouched_witness :
  let header := assign_generator "test" (Header_default 0) in
  let run : @M nat (list string) unit := chunk_decoder (λ s, inr [[s]]) header in
  let o := operator_call [] run (Parser_new ["rec1"; "rec2"; ""] [] None 0) in
  header_events (events (final_state o)) = [ready_value header]
  ∧ m_header_promise (final_state o) = Some (ready_value header).
Proof.
  intros header run o.
  pose proof (success_leaves_header_untouched [] run
                (Parser_new ["rec1"; "rec2"; ""] [] None 0)
                (final_state (run (Parser_new ["rec1"; "rec2"; ""] [] None 0)))
                ltac:(vm_compute; reflexivity))
    as (_ & Hev & Hp & _).
  split; [vm_compute in Hev |- *; exact Hev|vm_compute in Hp |- *; exact Hp].
Defined.

(** ** Further runs *)

(** The message of [get_creator_function] for a format without creator. *)
Example unsupported_format_message :
  get_creator_function (create_parser_type := string) (λ _ : nat, "PBF")
    {| filename := "planet.osm.pbf"; format := 2 |} ParserFactory_new
  = inl (runtime_error
           "Can not open file 'planet.osm.pbf' with type 'PBF'. No support for reading this format in this program.").
Proof. reflexivity. Qed.

(** Setters chain on one object: [h.generator(g).pbf_has_dense_nodes(true)]. *)
Example Header_setters_chain :
  let σ : @store nat := {[ 1%positive := Header_default 0 ]} in
  ('(this, σ') ← Header_generator_set 1%positive "test" σ;
   Header_pbf_has_dense_nodes_set this true σ')
  = Some (1%positive,
          {[ 1%positive := assign_pbf_has_dense_nodes true
                             (assign_generator "test" (Header_default 0)) ]}).
Proof. reflexivity. Qed.

(** C1 as stated fails.  [m_header_is_done] is the only guard of the
    handler: after a [run] that satisfies the header promise, leaves the
    flag unset and throws, [set_exception] throws in the handler, and the
    [std::future_error] leaves [operator()] before the failing result and
    the terminal buffer are sent and before the input queue is drained. *)
Example handler_throws_on_unflagged_header :
  let run : @M nat (list string) unit :=
    resolve_unflagged_then_throw (Header_default 0) (decode_error "bad chunk") in
  let o := operator_call [] run (Parser_new ["a"; ""] [] None 0) in
  o = Throws (future_error promise_already_satisfied) (final_state o)
  ∧ m_output_queue (final_state o) = []
  ∧ m_input_queue (final_state o) = ["a"; ""].
Proof. done. Qed.




(** ** Concrete runs for the further properties *)

(** X1 on a [run] that takes a chunk, sends a buffer, satisfies the header
    promise without setting [m_header_is_done], and throws. *)
Lemma handler_exception_escapes_witness :
  let header := assign_generator "test" (Header_default 0) in
  let run : @M nat (list string) unit :=
    wait_and_pop;; send_to_output_queue ["n1"];;
    header_promise_set (ready_value header);;
    throw (decode_error "bad chunk") in
  let o := operator_call [] run (Parser_new ["a"; "b"; ""] [] None 0) in
  o = Throws (future_error promise_already_satisfied) (final_state o)
  ∧ m_header_promise (final_state o) = Some (ready_value header)
  ∧ m_output_queue (final_state o) = [ready_value ["n1"]]
  ∧ m_input_queue (final_state o) = ["b"; ""].
Proof.
  intros header run o.
  pose proof (handler_exception_escapes [] run (Parser_new ["a"; "b"; ""] [] None 0)
                _ _ eq_refl eq_refl eq_refl) as (Ho & _ & Hp & Hout & Hin & _).
  split; [exact Ho|]. split; [exact Hp|]. split; [exact Hout|exact Hin].
Defined.

(** X2 on a decoder that fails on the second chunk: [operator()] returns,
    so the empty chunk was still to come when [run] threw. *)
Lemma operator_call_returns_only_if_witness :
  let run : @M nat (list string) unit :=
    chunk_decoder
      (λ s, if String.eqb s "b" then inl (decode_error "bad chunk") else inr [[s]])
      (Header_default 0) in
  let st0 := Parser_new ["a"; "b"; "c"; ""] [] None 0 in
  ∃ how st1,
    ends (run st0) = Some (how, st1)
    ∧ (∀ e, how = threw e →
         m_header_is_done st1 = false → m_header_promise st1 = None)
    ∧ (m_input_queue_done st1 = false → "" ∈ m_input_queue st1)
    ∧ last (m_output_queue (final_state (operator_call [] run st0)))
      = Some (ready_value []).
Proof.
  intros run st0.
  pose proof (operator_call_returns_only_if [] run st0
                (final_state (operator_call [] run st0))
                ltac:(vm_compute; reflexivity))
    as (how & st1 & Hends & Hguard & Hsent & Hlast).
  exists how, st1. split; [exact Hends|]. split; [exact Hguard|].
  split; [exact Hsent|]. vm_compute in Hlast |- *. exact Hlast.
Defined.

(** X3 on a decoder that fails on the second chunk after sending a buffer
    for the first one. *)
Lemma operator_call_frame_witness :
  let run : @M nat (list string) unit :=
    chunk_decoder
      (λ s, if String.eqb s "b" then inl (decode_error "bad chunk") else inr [[s]])
      (Header_default 0) in
  let st0 := Parser_new ["a"; "b"; "c"; ""] [] None 5 in
  let st2 := final_state (operator_call [] run st0) in
  m_read_types st2 = 5%N
  ∧ m_input_queue_done st2 = false
  ∧ m_header_promise st2 = Some (ready_value (Header_default 0))
  ∧ ∃ sent, m_output_queue st2 = [ready_value ["a"]] ++ sent.
Proof.
  intros run st0 st2.
  pose proof (operator_call_frame [] run st0 _ (threw _) eq_refl)
    as (Hrt & Hqd & _ & Hp & Hout & _).
  split; [exact Hrt|]. split; [exact Hqd|].
  split; [exact (Hp _ eq_refl)|exact Hout].
Defined.

(** X4 on a [run] that sets [m_header_is_done], does not resolve the
    header and throws: the failure reaches the output queue and the header
    promise stays unsatisfied. *)
Lemma header_after_failure_witness :
  let run : @M nat (list string) unit :=
    write (with_header_is_done true);; throw (decode_error "bad chunk") in
  let st2 := final_state (operator_call [] run (Parser_new ["a"; ""] [] None 0)) in
  m_header_is_done st2 = true
  ∧ m_header_promise st2 = None
  ∧ m_output_queue st2
    = [ready_exception (decode_error "bad chunk"); ready_value []].
Proof.
  intros run st2.
  pose proof (header_after_failure [] run (Parser_new ["a"; ""] [] None 0)
                _ _ eq_refl) as (Hdone & Hp).
  split; [exact Hdone|]. split; [exact Hp|reflexivity].
Defined.

